(** * Border-seeded flood fill of [scripts/fix_icon.py]

    A shallow embedding of [fix_icon_and_generate_favicon]: the pixel
    predicate [is_white], the breadth-first replacement of the near-white
    region connected to the image border, and the surrounding
    open / save / resize pipeline with its [try ... except] handler.

    Integers are Python integers ([Z]); the raster behind [img.load()] is a
    finite map from coordinates to pixels; [visited] is a finite set and
    [queue] a list used as a FIFO. *)

From stdpp Require Import gmap strings list.

Local Open Scope Z_scope.

(** ** Pixels and the colour predicate *)

(** An RGBA tuple; [pixel[0]], [pixel[1]], [pixel[2]], [pixel[3]]. *)
Record pixel := Pixel { red : Z; green : Z; blue : Z; alpha : Z }.

#[global] Instance pixel_eq_dec : EqDecision pixel.
Proof. solve_decision. Defined.

(** [target_green = (17, 124, 50, 255)] *)
Definition target_green : pixel := Pixel 17 124 50 255.

(** [def is_white(pixel): return pixel[0] > 200 and pixel[1] > 200 and pixel[2] > 200] *)
Definition is_white (p : pixel) : bool :=
  (200 <? red p) && (200 <? green p) && (200 <? blue p).

(** ** The raster *)

Abbreviation coord := (Z * Z)%type.

(** [img.size] together with the pixel-access object returned by [img.load()]. *)
Record image := Image { width : Z; height : Z; data : gmap coord pixel }.

(** [0 <= x < w and 0 <= y < h] *)
Definition inside (w h : Z) (c : coord) : Prop :=
  (0 ≤ c.1 < w) ∧ (0 ≤ c.2 < h).

#[global] Instance inside_dec w h c : Decision (inside w h c).
Proof. unfold inside. apply _. Defined.

(** Every coordinate of a [w] by [h] raster, row by row. *)
Definition cells (w h : Z) : gset coord :=
  list_to_set (y ← seqZ 0 h; x ← seqZ 0 w; [(x, y)]).

(** A raster stores one pixel per coordinate of its size and nothing else. *)
Definition wf_image (im : image) : Prop :=
  dom (data im) = cells (width im) (height im).

#[global] Instance wf_image_dec im : Decision (wf_image im).
Proof. unfold wf_image. apply _. Defined.

(** Pixel access indexes like a sequence: a negative index counts from the
    far edge, and an index that is still outside raises [IndexError]
    ([None] below). *)
Definition wrap (n i : Z) : Z := if decide (i < 0) then n + i else i.

Definition locate (im : image) (c : coord) : option coord :=
  let c' := (wrap (width im) c.1, wrap (height im) c.2) in
  if decide (inside (width im) (height im) c') then Some c' else None.

(** [pixels[c]] *)
Definition getpixel (im : image) (c : coord) : option pixel :=
  c' ← locate im c; data im !! c'.

(** [pixels[c] = v] *)
Definition putpixel (im : image) (c : coord) (v : pixel) : option image :=
  c' ← locate im c; Some (Image (width im) (height im) (<[c' := v]> (data im))).

(** ** The flood fill *)

(** Every indexing of the raster the fill performs, in program order. *)
Inductive access := Load (c : coord) | Store (c : coord).

#[global] Instance access_eq_dec : EqDecision access.
Proof. solve_decision. Defined.

(** The coordinates written, in program order. *)
Fixpoint stores (tr : list access) : list coord :=
  match tr with
  | [] => []
  | Store c :: tr' => c :: stores tr'
  | Load _ :: tr' => stores tr'
  end.

(** The coordinates indexed, in program order. *)
Definition touched (a : access) : coord :=
  match a with Load c => c | Store c => c end.

(** The variables of the loop: the raster, [visited], [queue], and the
    accesses made so far. *)
Record machine := Machine {
  pixels : image;
  visited : gset coord;
  queue : list coord;
  trace : list access
}.

(** How a run of the fill ends: the loop exits, an [IndexError] escapes, or
    the iteration budget of the model is used up. *)
Inductive outcome := Finished (st : machine) | Raised | Starved.

(** The seeds in the order they are appended:
[[
for x in range(width):
    queue.append((x, 0)); queue.append((x, height-1))
for y in range(height):
    queue.append((0, y)); queue.append((width-1, y))
]] *)
Definition top_bottom (w h : Z) : list coord :=
  x ← seqZ 0 w; [(x, 0); (x, h - 1)].

Definition left_right (w h : Z) : list coord :=
  y ← seqZ 0 h; [(0, y); (w - 1, y)].

Definition border (w h : Z) : list coord := top_bottom w h ++ left_right w h.

(** [[(-1,0), (1,0), (0,-1), (0,1)]] added to [(x, y)] *)
Definition neighbours (c : coord) : list coord :=
  [(c.1 + -1, c.2 + 0); (c.1 + 1, c.2 + 0); (c.1 + 0, c.2 + -1); (c.1 + 0, c.2 + 1)].

Section Fill.
Variable matches : pixel → bool.
Variable target : pixel.

(** [queue = [p for p in queue if matches(pixels[p])]] *)
Fixpoint select (im : image) (l : list coord) (tr : list access)
  : option (list coord * list access) :=
  match l with
  | [] => Some ([], tr)
  | p :: l' =>
      v ← getpixel im p;
      '(q, tr') ← select im l' (tr ++ [Load p]);
      Some (if matches v then p :: q else q, tr')
  end.

(** One round of the inner [for dx, dy in ...] loop:
[[
if 0 <= nx < width and 0 <= ny < height:
  if (nx, ny) not in visited and matches(pixels[nx, ny]):
      queue.append((nx, ny))
]] *)
Definition probe (n : coord) (st : machine) : option machine :=
  if decide (inside (width (pixels st)) (height (pixels st)) n) then
    if decide (n ∈ visited st) then Some st
    else
      v ← getpixel (pixels st) n;
      Some (Machine (pixels st) (visited st)
              (if matches v then queue st ++ [n] else queue st)
              (trace st ++ [Load n]))
  else Some st.

Fixpoint scan (ns : list coord) (st : machine) : option machine :=
  match ns with
  | [] => Some st
  | n :: ns' => st' ← probe n st; scan ns' st'
  end.

(** The body of the [while] loop once [c = queue.pop(0)] is taken; [st]
    already holds the shortened queue. *)
Definition body (c : coord) (st : machine) : option machine :=
  if decide (c ∈ visited st) then Some st
  else
    im' ← putpixel (pixels st) c target;
    scan (neighbours c)
      (Machine im' ({[c]} ∪ visited st) (queue st) (trace st ++ [Store c])).

(** [while queue: ...] with at most [fuel] iterations. *)
Fixpoint loop (fuel : nat) (st : machine) : outcome :=
  match queue st with
  | [] => Finished st
  | c :: q =>
      match fuel with
      | O => Starved
      | S fuel' =>
          match body c (Machine (pixels st) (visited st) q (trace st)) with
          | Some st' => loop fuel' st'
          | None => Raised
          end
      end
  end.

(** Iterations that are always enough for a raster holding [n] pixels and
    [k] seeds: each pixel is visited once and appends at most four
    entries. *)
Definition budget (im : image) (q : list coord) : nat :=
  S (4 * size (data im) + length q)%nat.

(** The state on entry to the [while] loop. *)
Definition start (im : image) : option machine :=
  '(q, tr) ← select im (border (width im) (height im)) [];
  Some (Machine im ∅ q tr).

Definition fill (im : image) : outcome :=
  match start im with
  | Some st => loop (budget im (queue st)) st
  | None => Raised
  end.
End Fill.

(** ** The region the fill is meant to recolour *)

(** Two cells are 4-connected neighbours when they differ by one unit in
    exactly one axis. *)
Definition adjacent (c n : coord) : Prop :=
  Z.abs (n.1 - c.1) + Z.abs (n.2 - c.2) = 1.

(** The outer ring of a [w] by [h] raster. *)
Definition on_border (w h : Z) (c : coord) : Prop :=
  inside w h c ∧ (c.1 = 0 ∨ c.1 = w - 1 ∨ c.2 = 0 ∨ c.2 = h - 1).

(** Consecutive cells of a path are neighbours. *)
Fixpoint linked (p : list coord) : Prop :=
  match p with
  | a :: p' => match p' with b :: _ => adjacent a b | [] => True end ∧ linked p'
  | [] => True
  end.

Section Region.
Variable matches : pixel → bool.
Variable target : pixel.

(** The pixel stored at [c] satisfies the predicate. *)
Definition hit (im : image) (c : coord) : bool :=
  match data im !! c with Some v => matches v | None => false end.

(** [c] is reached from the border through neighbouring matching pixels of
    [im], as a closure. *)
Inductive reach (im : image) : coord → Prop :=
| reach_border c :
    on_border (width im) (height im) c → hit im c = true → reach im c
| reach_next c n :
    reach im c → adjacent c n → inside (width im) (height im) n →
    hit im n = true → reach im n.

(** [p] is a 4-connected path of matching pixels of [im] that starts on the
    border and ends at [c]. *)
Definition trail (im : image) (p : list coord) (c : coord) : Prop :=
  (∃ s, head p = Some s ∧ on_border (width im) (height im) s) ∧
  last p = Some c ∧
  Forall (λ n, inside (width im) (height im) n ∧ hit im n = true) p ∧
  linked p.

Definition joined (im : image) (c : coord) : Prop := ∃ p, trail im p c.

(** Every pixel is the input's or the target. *)
Definition tame (im : image) (st : machine) : Prop :=
  ∀ c, data (pixels st) !! c = data im !! c ∨ data (pixels st) !! c = Some target.

(** What holds of the loop variables at the head of every iteration of a
    fill of the well-formed raster [im]. *)
Record sound (im : image) (st : machine) : Prop := Sound {
  sound_width : width (pixels st) = width im;
  sound_height : height (pixels st) = height im;
  sound_painted : ∀ c, c ∈ visited st → data (pixels st) !! c = Some target;
  sound_kept : ∀ c, c ∉ visited st → data (pixels st) !! c = data im !! c;
  sound_visited : ∀ c, c ∈ visited st → reach im c;
  sound_queue : ∀ c, c ∈ queue st → reach im c;
  sound_once : NoDup (stores (trace st));
  sound_written : ∀ c, c ∈ stores (trace st) ↔ c ∈ visited st;
  sound_access : ∀ a, a ∈ trace st → inside (width im) (height im) (touched a);
  sound_seeds : ∀ c, on_border (width im) (height im) c → hit im c = true →
                     c ∈ visited st ∨ c ∈ queue st;
  sound_closed : ∀ c n, c ∈ visited st → adjacent c n →
                        inside (width im) (height im) n → hit im n = true →
                        n ∈ visited st ∨ n ∈ queue st
}.

(** The quantity every iteration decreases. *)
Definition potential (im : image) (st : machine) : nat :=
  (4 * size (dom (data im) ∖ visited st) + length (queue st))%nat.
End Region.

(** ** Rasters to run the fill on *)

Definition white : pixel := Pixel 255 255 255 255.
Definition black : pixel := Pixel 0 0 0 255.

(** The [w] by [h] raster whose pixel at [c] is [f c]. *)
Definition raster (w h : Z) (f : coord → pixel) : image :=
  Image w h (list_to_map ((λ c, (c, f c)) <$> (y ← seqZ 0 h; x ← seqZ 0 w; [(x, y)]))).

(** A single row of three white pixels. *)
Definition row3 : image := raster 3 1 (λ _, white).

(** Five by five: a white centre inside a black ring inside a white rim. *)
Definition moat : image :=
  raster 5 5 (λ c, if decide (Z.max (Z.abs (c.1 - 2)) (Z.abs (c.2 - 2)) = 1)
                   then black else white).

(** Three by three, black all around a white centre. *)
Definition island : image :=
  raster 3 3 (λ c, if decide (c = (1, 1)) then white else black).

(** ** The script around the fill *)

(** The collaborators of the script: decoding the source asset, encoding an
    image to a path, and resampling.  Each may raise; the message of the
    exception is all the script looks at. *)
Record collaborators := Collaborators {
  open_image : string → string + image;
  save_fault : string → option string;
  resize : image → Z * Z → string + image
}.

(** What the script can change: the files it saved (with [saves] listing the
    paths in the order they were written) and the lines it printed. *)
Record world := World {
  disk : gmap string image;
  saves : list string;
  stdout : list string
}.

(** A statement returns a value, raises an exception carrying a message, or
    does not return. *)
Inductive result (A : Type) := Val (a : A) | Exn (msg : string) | Hang.
Arguments Val {A} a.
Arguments Exn {A} msg.
Arguments Hang {A}.

Definition IO (A : Type) : Type := world → world * result A.

#[global] Instance IO_ret : MRet IO := λ A a w, (w, Val a).

#[global] Instance IO_bind : MBind IO := λ A B k m w,
  match m w with
  | (w', Val a) => k a w'
  | (w', Exn e) => (w', Exn e)
  | (w', Hang) => (w', Hang)
  end.

Definition throw {A} (e : string) : IO A := λ w, (w, Exn e).

Definition lift {A} (r : string + A) : IO A :=
  match r with inl e => throw e | inr a => mret a end.

(** [try: m except Exception as e: h(e)] *)
Definition try_except (m : IO unit) (h : string → IO unit) : IO unit := λ w,
  match m w with
  | (w', Exn e) => h e w'
  | r => r
  end.

Definition print (s : string) : IO unit := λ w,
  (World (disk w) (saves w) (stdout w ++ [s]), Val ()).

(** [for a in l: f(a)] *)
Fixpoint for_each {A} (l : list A) (f : A → IO unit) : IO unit :=
  match l with
  | [] => mret ()
  | a :: l' => f a ≫= λ _, for_each l' f
  end.

(** [sizes], in insertion order. *)
Definition sizes : list (string * (Z * Z)) :=
  [("public/icons/icon-1024.png", (1024, 1024));
   ("public/icons/icon-512.png", (512, 512));
   ("public/icons/icon-192.png", (192, 192));
   ("public/apple-touch-icon.png", (180, 180))].

(** Every path the script saves to, in program order. *)
Definition outputs : list string :=
  "public/gimmies_app_icon.png" :: (sizes.*1 ++ ["public/favicon.png"]).

(** The lines a run without failure prints, in program order. *)
Definition chatter : list string :=
  ["Flood fill complete."; "Saved fixed public/gimmies_app_icon.png";
   "Generated public/icons/icon-1024.png"; "Generated public/icons/icon-512.png";
   "Generated public/icons/icon-192.png"; "Generated public/apple-touch-icon.png";
   "Generated public/favicon.png"].

Section Script.
Variable env : collaborators.

(** [im.save(path)]: the file appears whole or the call raises. *)
Definition save (im : image) (path : string) : IO unit := λ w,
  match save_fault env path with
  | Some e => (w, Exn e)
  | None => (World (<[path := im]> (disk w)) (saves w ++ [path]) (stdout w), Val ())
  end.

(** Lines 29 to 59 on the opened image. *)
Definition flood (im : image) : IO image := λ w,
  match fill is_white target_green im with
  | Finished st => (w, Val (pixels st))
  | Raised => (w, Exn "image index out of range")
  | Starved => (w, Hang)
  end.

(** The body of the [try] block. *)
Definition attempt : IO unit :=
  img ← lift (open_image env "public/gimmies-app-logo.png");
  img ← flood img;
  _ ← print "Flood fill complete.";
  _ ← save img "public/gimmies_app_icon.png";
  _ ← print "Saved fixed public/gimmies_app_icon.png";
  _ ← for_each sizes (λ '(path, size),
         resized ← lift (resize env img size);
         _ ← save resized path;
         print ("Generated " +:+ path));
  favicon ← lift (resize env img (64, 64));
  _ ← save favicon "public/favicon.png";
  print "Generated public/favicon.png".

Definition fix_icon_and_generate_favicon : IO unit :=
  try_except attempt (λ e, print ("Error: " +:+ e)).
End Script.

(** An environment to run the script in: the source decodes to [row3], the
    resampler hands back its input, and saving the 512 pixel icon fails. *)
Definition full_disk : collaborators :=
  Collaborators
    (λ _, inr row3)
    (λ path, if decide (path = "public/icons/icon-512.png")
             then Some "No space left on device" else None)
    (λ im _, inr im).

(** * Properties *)

(** ** Coordinates, rasters and pixel access *)

Lemma elem_of_cells w h c : c ∈ cells w h ↔ inside w h c.
Proof.
  unfold cells, inside. rewrite elem_of_list_to_set. destruct c as [x y].
  setoid_rewrite list_elem_of_bind. setoid_rewrite list_elem_of_bind.
  setoid_rewrite elem_of_seqZ. setoid_rewrite list_elem_of_singleton. simpl.
  split.
  - intros (y' & (x' & [= -> ->] & Hx) & Hy). lia.
  - intros [Hx Hy]. exists y. split; [exists x; split; [done | lia] | lia].
Qed.

Lemma wf_lookup im c :
  wf_image im → is_Some (data im !! c) ↔ inside (width im) (height im) c.
Proof. intros Hwf. by rewrite <- elem_of_dom, Hwf, elem_of_cells. Qed.

Lemma wrap_inside n i : 0 ≤ i < n → wrap n i = i.
Proof. intros ?. unfold wrap. case_decide; lia. Qed.

Lemma locate_inside im c : inside (width im) (height im) c → locate im c = Some c.
Proof.
  intros [Hx Hy]. unfold locate. rewrite !wrap_inside by done.
  destruct c. simpl in *. by rewrite decide_True.
Qed.

Lemma getpixel_inside im c :
  inside (width im) (height im) c → getpixel im c = data im !! c.
Proof. intros Hc. unfold getpixel. by rewrite locate_inside. Qed.

Lemma putpixel_inside im c v :
  inside (width im) (height im) c →
  putpixel im c v = Some (Image (width im) (height im) (<[c := v]> (data im))).
Proof. intros Hc. unfold putpixel. by rewrite locate_inside. Qed.

Lemma locate_Some im c c' :
  locate im c = Some c' → inside (width im) (height im) c'.
Proof. unfold locate. case_decide; naive_solver. Qed.

Lemma raster_wf w h f : wf_image (raster w h f).
Proof.
  unfold wf_image, raster, cells. simpl. rewrite dom_list_to_map_L.
  by rewrite <- list_fmap_compose, list_fmap_id.
Qed.

Lemma adjacent_neighbours c n : adjacent c n ↔ n ∈ neighbours c.
Proof.
  unfold adjacent, neighbours. destruct c as [x y], n as [x' y']. simpl.
  rewrite !elem_of_cons, elem_of_nil. split.
  - intros H.
    assert ((x' = x + -1 ∧ y' = y + 0) ∨ (x' = x + 1 ∧ y' = y + 0) ∨
            (x' = x + 0 ∧ y' = y + -1) ∨ (x' = x + 0 ∧ y' = y + 1)) as Hcase by lia.
    destruct Hcase as [[-> ->] | [[-> ->] | [[-> ->] | [-> ->]]]]; auto.
  - intros [[= -> ->] | [[= -> ->] | [[= -> ->] | [[= -> ->] | []]]]]; lia.
Qed.

Lemma elem_of_border w h c :
  1 ≤ w → 1 ≤ h → c ∈ border w h ↔ on_border w h c.
Proof.
  intros Hw Hh. unfold border, top_bottom, left_right, on_border, inside.
  destruct c as [x y].
  rewrite elem_of_app, !list_elem_of_bind. simpl. split.
  - intros [(x' & Hin & Hx) | (y' & Hin & Hy)];
      rewrite elem_of_seqZ in *; rewrite !elem_of_cons, elem_of_nil in Hin;
      destruct Hin as [[= -> ->] | [[= -> ->] | []]]; lia.
  - intros [[Hx Hy] Hedge].
    destruct (decide (y = 0)) as [-> | ?].
    { left. exists x. rewrite elem_of_seqZ. split; [apply list_elem_of_here | lia]. }
    destruct (decide (y = h - 1)) as [-> | ?].
    { left. exists x. rewrite elem_of_seqZ.
      split; [apply list_elem_of_further, list_elem_of_here | lia]. }
    destruct (decide (x = 0)) as [-> | ?].
    { right. exists y. rewrite elem_of_seqZ. split; [apply list_elem_of_here | lia]. }
    destruct (decide (x = w - 1)) as [-> | ?]; [| lia].
    right. exists y. rewrite elem_of_seqZ.
    split; [apply list_elem_of_further, list_elem_of_here | lia].
Qed.

Lemma elem_of_mark (c c' : coord) (V : gset coord) :
  c' ∈ {[c]} ∪ V ↔ c' = c ∨ c' ∈ V.
Proof. by rewrite elem_of_union, elem_of_singleton. Qed.

Lemma stores_app tr1 tr2 : stores (tr1 ++ tr2) = stores tr1 ++ stores tr2.
Proof.
  induction tr1 as [| [c | c] tr1 IH]; simpl; [done | done | by rewrite IH].
Qed.

Lemma stores_loads l : stores (Load <$> l) = [].
Proof. induction l; simpl; done. Qed.

(** ** The traversal, statement by statement *)

Section Traversal.
Variable matches : pixel → bool.
Variable target : pixel.

Lemma hit_lookup im c v : data im !! c = Some v → hit matches im c = matches v.
Proof. intros Hv. unfold hit. by rewrite Hv. Qed.

(** The comprehension keeps the matching seeds and reads every candidate. *)
Lemma select_spec im l tr :
  wf_image im → Forall (inside (width im) (height im)) l →
  select matches im l tr =
    Some (filter (λ c, hit matches im c = true) l, tr ++ (Load <$> l)).
Proof.
  intros Hwf Hl. revert tr. induction Hl as [| p l Hp Hl IH]; intros tr; simpl.
  - by rewrite app_nil_r.
  - rewrite getpixel_inside by done.
    destruct (proj2 (wf_lookup im p Hwf) Hp) as [v Hv]. rewrite Hv. simpl.
    rewrite IH. simpl. rewrite filter_cons, (hit_lookup _ _ _ Hv), <- app_assoc.
    simpl. destruct (matches v); [by rewrite decide_True | by rewrite decide_False].
Qed.

(** The inner loop appends the in-range, unvisited, matching neighbours and
    reads the in-range, unvisited ones. *)
Lemma scan_spec ns P V q tr :
  (∀ n, inside (width P) (height P) n → is_Some (data P !! n)) →
  scan matches ns (Machine P V q tr) =
    Some (Machine P V
      (q ++ filter (λ n, inside (width P) (height P) n ∧ (n ∉ V) ∧
                         hit matches P n = true) ns)
      (tr ++ (Load <$> filter (λ n, inside (width P) (height P) n ∧ (n ∉ V)) ns))).
Proof.
  intros Hfull. revert q tr. induction ns as [| n ns IH]; intros q tr; simpl.
  - by rewrite !app_nil_r.
  - unfold probe. simpl. rewrite !filter_cons.
    destruct (decide (inside (width P) (height P) n)) as [Hn | Hn]; simpl.
    + destruct (decide (n ∈ V)) as [HV | HV]; simpl.
      * rewrite IH. rewrite decide_False by tauto. by rewrite decide_False by tauto.
      * rewrite getpixel_inside by done. destruct (Hfull n Hn) as [v Hv].
        rewrite Hv. simpl. rewrite IH, (decide_True _ _ (conj Hn HV)).
        rewrite fmap_cons, <- !app_assoc. simpl.
        rewrite (hit_lookup _ _ _ Hv). destruct (matches v).
        -- rewrite decide_True by done. by rewrite <- app_assoc.
        -- by rewrite decide_False by (by intros (_ & _ & ?)).
    + rewrite IH. rewrite decide_False by tauto. by rewrite decide_False by tauto.
Qed.

(** A popped coordinate that was visited before changes nothing. *)
Lemma body_visited c st : c ∈ visited st → body matches target c st = Some st.
Proof. intros Hc. unfold body. by rewrite decide_True. Qed.

(** A popped coordinate that is new is marked, painted, and its neighbours
    are inspected. *)
Lemma body_fresh c st :
  c ∉ visited st →
  inside (width (pixels st)) (height (pixels st)) c →
  (∀ n, inside (width (pixels st)) (height (pixels st)) n →
        is_Some (data (pixels st) !! n)) →
  let P := Image (width (pixels st)) (height (pixels st))
             (<[c := target]> (data (pixels st))) in
  let V := {[c]} ∪ visited st in
  body matches target c st =
    Some (Machine P V
      (queue st ++ filter (λ n, inside (width P) (height P) n ∧ (n ∉ V) ∧
                                hit matches P n = true) (neighbours c))
      ((trace st ++ [Store c]) ++
         (Load <$> filter (λ n, inside (width P) (height P) n ∧ (n ∉ V))
                     (neighbours c)))).
Proof.
  intros Hc Hin Hfull P V. unfold body. rewrite decide_False by done.
  rewrite putpixel_inside by done. cbv [mbind option_bind]. cbv beta iota.
  apply scan_spec. simpl.
  intros n Hn. destruct (decide (c = n)) as [-> | Hne].
  - rewrite lookup_insert_eq. eauto.
  - rewrite lookup_insert_ne by done. auto.
Qed.

(** ** What every iteration keeps *)

Lemma on_border_inside w h c : on_border w h c → inside w h c.
Proof. by intros [? _]. Qed.

Lemma reach_inside im c : reach matches im c → inside (width im) (height im) c.
Proof. destruct 1; eauto using on_border_inside. Qed.

Lemma reach_hit im c : reach matches im c → hit matches im c = true.
Proof. by destruct 1. Qed.

Lemma sound_full im st :
  wf_image im → sound matches target im st →
  ∀ n, inside (width (pixels st)) (height (pixels st)) n →
       is_Some (data (pixels st) !! n).
Proof.
  intros Hwf Hs n. rewrite (sound_width _ _ _ _ Hs), (sound_height _ _ _ _ Hs).
  intros Hn. destruct (decide (n ∈ visited st)) as [HV | HV].
  - rewrite (sound_painted _ _ _ _ Hs n HV). eauto.
  - rewrite (sound_kept _ _ _ _ Hs n HV). by apply wf_lookup.
Qed.

(** The raster keeps its shape: the painted pixels were there before. *)
Lemma sound_wf im st :
  wf_image im → sound matches target im st → wf_image (pixels st).
Proof.
  intros Hwf Hs. unfold wf_image.
  rewrite (sound_width _ _ _ _ Hs), (sound_height _ _ _ _ Hs), <- Hwf.
  apply set_eq. intros c. rewrite !elem_of_dom.
  destruct (decide (c ∈ visited st)) as [HV | HV].
  - rewrite (sound_painted _ _ _ _ Hs c HV). split; [intros _ | eauto].
    apply wf_lookup, reach_inside, (sound_visited _ _ _ _ Hs); done.
  - by rewrite (sound_kept _ _ _ _ Hs c HV).
Qed.

Lemma sound_pop_visited im P V c q tr :
  c ∈ V →
  sound matches target im (Machine P V (c :: q) tr) →
  sound matches target im (Machine P V q tr).
Proof.
  intros Hc [Hw Hh Hp Hk Hv Hq Ho Hwr Ha Hse Hcl]. simpl in *.
  split; simpl; try done.
  - intros c' Hc'. apply Hq. by apply list_elem_of_further.
  - intros c' Hb Hhit. destruct (Hse c' Hb Hhit) as [? | Hin]; [by left |].
    apply elem_of_cons in Hin as [-> | ?]; auto.
  - intros c' n HV Hadj Hn Hhit.
    destruct (Hcl c' n HV Hadj Hn Hhit) as [? | Hin]; [by left |].
    apply elem_of_cons in Hin as [-> | ?]; auto.
Qed.

Lemma sound_pop_fresh im P V c q tr :
  c ∉ V →
  sound matches target im (Machine P V (c :: q) tr) →
  let P' := Image (width P) (height P) (<[c := target]> (data P)) in
  let V' := {[c]} ∪ V in
  sound matches target im
    (Machine P' V'
      (q ++ filter (λ n, inside (width P') (height P') n ∧ (n ∉ V') ∧
                         hit matches P' n = true) (neighbours c))
      ((tr ++ [Store c]) ++
         (Load <$> filter (λ n, inside (width P') (height P') n ∧ (n ∉ V'))
                     (neighbours c)))).
Proof.
  intros Hc [Hw Hh Hp Hk Hv Hq Ho Hwr Ha Hse Hcl] P' V'. simpl in *.
  assert (reach matches im c) as Hrc by apply Hq, list_elem_of_here.
  assert (∀ n, n ∉ V' → data P' !! n = data im !! n) as Hk'.
  { intros n Hn. unfold P', V' in *. simpl.
    rewrite lookup_insert_ne by (intros ->; apply Hn, elem_of_mark; auto).
    apply Hk. intros HV. apply Hn, elem_of_mark. auto. }
  assert (∀ n, n ∉ V' → hit matches P' n = hit matches im n) as Hhit'.
  { intros n Hn. unfold hit. by rewrite Hk'. }
  split; simpl.
  - done.
  - done.
  - intros c' Hc'. destruct (decide (c = c')) as [-> | Hne].
    + apply lookup_insert_eq.
    + rewrite lookup_insert_ne by done. apply Hp.
      by apply elem_of_mark in Hc' as [-> | ?].
  - done.
  - intros c' Hc'. apply elem_of_union in Hc' as [Hc' | Hc']; [| by apply Hv].
    apply elem_of_singleton in Hc'. by subst.
  - intros c' Hc'. apply elem_of_app in Hc' as [Hc' | Hc'].
    + apply Hq. by apply list_elem_of_further.
    + apply list_elem_of_filter in Hc' as [(Hin & HV' & Hhit) Hnb].
      rewrite Hw, Hh in Hin. rewrite Hhit' in Hhit by done.
      apply reach_next with c; [done | by apply adjacent_neighbours | done | done].
  - rewrite !stores_app, stores_loads, app_nil_r. simpl.
    apply NoDup_app. split_and!; [done | | apply NoDup_singleton].
    intros c' Hc' Hin. apply list_elem_of_singleton in Hin as ->.
    by apply Hc, Hwr.
  - intros c'. rewrite !stores_app, stores_loads, app_nil_r. simpl.
    unfold V'. rewrite elem_of_app, list_elem_of_singleton, Hwr, elem_of_mark. tauto.
  - intros a Ha'. apply elem_of_app in Ha' as [Ha' | Ha'].
    + apply elem_of_app in Ha' as [Ha' | Ha']; [by apply Ha |].
      apply list_elem_of_singleton in Ha' as ->. simpl. by apply reach_inside.
    + apply list_elem_of_fmap in Ha' as (n & -> & Hn).
      apply list_elem_of_filter in Hn as [[Hin _] _]. simpl.
      by rewrite Hw, Hh in Hin.
  - intros c' Hb Hhit. unfold V'. rewrite elem_of_mark.
    destruct (Hse c' Hb Hhit) as [? | Hin]; [auto |].
    apply elem_of_cons in Hin as [-> | ?]; [auto |].
    right. apply elem_of_app. by left.
  - intros c' n HV Hadj Hn Hhit.
    destruct (decide (n ∈ V')) as [HnV | HnV]; [by left |]. right.
    apply elem_of_app. apply elem_of_union in HV as [HV | HV].
    + apply elem_of_singleton in HV as ->. right. apply list_elem_of_filter.
      split; [| by apply adjacent_neighbours].
      rewrite Hw, Hh, Hhit' by done. done.
    + destruct (Hcl c' n HV Hadj Hn Hhit) as [? | Hin].
      { destruct HnV. apply elem_of_mark. auto. }
      apply elem_of_cons in Hin as [-> | ?]; [| by left].
      destruct HnV. apply elem_of_mark. auto.
Qed.

(** ** The loop runs out of work *)

Lemma potential_pop_visited im P V c q tr :
  (potential im (Machine P V q tr) < potential im (Machine P V (c :: q) tr))%nat.
Proof. unfold potential. simpl. lia. Qed.

Lemma potential_pop_fresh im P P' V c q q' tr tr' :
  c ∈ dom (data im) → c ∉ V → (length q' ≤ length q + 4)%nat →
  (potential im (Machine P' ({[c]} ∪ V) q' tr') <
   potential im (Machine P V (c :: q) tr))%nat.
Proof.
  intros HD HV Hlen. unfold potential. simpl.
  assert (dom (data im) ∖ ({[c]} ∪ V) ⊂ dom (data im) ∖ V) as Hsub.
  { split.
    - intros x. rewrite !elem_of_difference, elem_of_mark. tauto.
    - intros Hsup. specialize (Hsup c).
      rewrite !elem_of_difference, elem_of_mark in Hsup. tauto. }
  apply subset_size in Hsub. lia.
Qed.

Lemma loop_finishes im n st :
  wf_image im → sound matches target im st → (potential im st < n)%nat →
  ∃ st', loop matches target n st = Finished st' ∧
         sound matches target im st' ∧ queue st' = [].
Proof.
  intros Hwf. revert st. induction n as [| n IH]; intros st Hs Hpot; [lia |].
  destruct st as [P V q tr]. destruct q as [| c q]; simpl.
  { eauto. }
  destruct (decide (c ∈ V)) as [HV | HV].
  - rewrite body_visited by done. apply IH.
    + by apply sound_pop_visited with c.
    + pose proof (potential_pop_visited im P V c q tr). lia.
  - assert (reach matches im c) as Hrc
      by (apply (sound_queue _ _ _ _ Hs); apply list_elem_of_here).
    pose proof (reach_inside _ _ Hrc) as Hin.
    rewrite body_fresh; simpl; [| done | | ].
    + apply IH; [by apply sound_pop_fresh |].
      eapply Nat.lt_le_trans; [| apply Nat.lt_succ_r, Hpot].
      apply potential_pop_fresh; [| done |].
      * apply elem_of_dom. by apply wf_lookup.
      * rewrite length_app. pose proof (length_filter
          (λ n0, inside (width P) (height P) n0 ∧
                 (n0 ∉ {[c]} ∪ V) ∧
                 hit matches (Image (width P) (height P) (<[c:=target]> (data P))) n0 = true)
          (neighbours c)) as Hle.
        simpl in Hle. simpl. lia.
    + pose proof (sound_width _ _ _ _ Hs) as Hw.
      pose proof (sound_height _ _ _ _ Hs) as Hh. simpl in Hw, Hh.
      by rewrite Hw, Hh.
    + apply (sound_full im _ Hwf Hs).
Qed.

(** More fuel than needed does not change the result. *)
Lemma loop_more n m st st' :
  loop matches target n st = Finished st' → (n ≤ m)%nat →
  loop matches target m st = Finished st'.
Proof.
  revert m st. induction n as [| n IH]; intros m st Hrun Hle.
  - destruct m; [done |]. simpl in *. by destruct (queue st).
  - destruct m as [| m]; [lia |]. simpl in *.
    destruct (queue st) as [| c q]; [done |].
    destruct (body matches target c _); [| done]. apply IH; [done | lia].
Qed.

(** ** The state on entry to the loop *)

Lemma border_inside w h :
  1 ≤ w → 1 ≤ h → Forall (inside w h) (border w h).
Proof.
  intros Hw Hh. apply Forall_forall. intros c Hc.
  by apply on_border_inside, elem_of_border.
Qed.

Lemma start_spec im :
  wf_image im → 1 ≤ width im → 1 ≤ height im →
  start matches im =
    Some (Machine im ∅
            (filter (λ c, hit matches im c = true) (border (width im) (height im)))
            (Load <$> border (width im) (height im))).
Proof.
  intros Hwf Hw Hh. unfold start.
  by rewrite select_spec by auto using border_inside.
Qed.

Lemma sound_start im :
  wf_image im → 1 ≤ width im → 1 ≤ height im →
  sound matches target im
    (Machine im ∅
       (filter (λ c, hit matches im c = true) (border (width im) (height im)))
       (Load <$> border (width im) (height im))).
Proof.
  intros Hwf Hw Hh. split; simpl; try done.
  - intros c Hc. apply list_elem_of_filter in Hc as [Hhit Hc].
    apply reach_border; [by apply elem_of_border | done].
  - rewrite stores_loads. apply NoDup_nil_2.
  - intros c. by rewrite stores_loads, elem_of_nil, elem_of_empty.
  - intros a Ha. apply list_elem_of_fmap in Ha as (c & -> & Hc). simpl.
    by apply on_border_inside, elem_of_border.
  - intros c Hb Hhit. right. apply list_elem_of_filter.
    split; [done | by apply elem_of_border].
Qed.

(** The fill of a well-formed raster returns, with the loop's invariant
    established and the queue empty. *)
Lemma fill_sound im :
  wf_image im → 1 ≤ width im → 1 ≤ height im →
  ∃ st, fill matches target im = Finished st ∧
        sound matches target im st ∧ queue st = [].
Proof.
  intros Hwf Hw Hh. unfold fill. rewrite start_spec by done.
  apply loop_finishes; [done | by apply sound_start |].
  unfold potential, budget. simpl. rewrite difference_empty_L, size_dom. lia.
Qed.

(** With the queue empty the visited set is exactly the border-connected
    matching region. *)
Lemma sound_complete im st c :
  sound matches target im st → queue st = [] →
  reach matches im c → c ∈ visited st.
Proof.
  intros Hs Hq. induction 1 as [c Hb Hhit | c n Hc IH Hadj Hn Hhit].
  - destruct (sound_seeds _ _ _ _ Hs c Hb Hhit) as [? | Hin]; [done |].
    rewrite Hq in Hin. by apply elem_of_nil in Hin.
  - destruct (sound_closed _ _ _ _ Hs c n IH Hadj Hn Hhit) as [? | Hin]; [done |].
    rewrite Hq in Hin. by apply elem_of_nil in Hin.
Qed.

(** ** Paths from the border *)

Lemma linked_snoc p a b :
  last p = Some a → linked p → adjacent a b → linked (p ++ [b]).
Proof.
  induction p as [| x p IH]; [done |]. intros Hlast [Hx Hp] Hadj.
  destruct p as [| y p].
  - simpl in *. injection Hlast as ->. done.
  - split; [done |]. by apply IH.
Qed.

Lemma linked_snoc_inv p b :
  linked (p ++ [b]) → linked p ∧ ∀ a, last p = Some a → adjacent a b.
Proof.
  induction p as [| x p IH]; [done |]. intros [Hx Hp].
  destruct p as [| y p].
  - simpl in *. split; [done |]. by intros a [= <-].
  - destruct (IH Hp) as [Hl Hlast]. split; [by split |]. done.
Qed.

Lemma reach_joined im c : reach matches im c ↔ joined matches im c.
Proof.
  split.
  - induction 1 as [c Hb Hhit | c n Hc IH Hadj Hn Hhit].
    + exists [c]. split_and!; simpl; eauto using on_border_inside.
    + destruct IH as (p & (s & Hhead & Hs) & Hlast & Hall & Hlink).
      exists (p ++ [n]). split_and!.
      * exists s. split; [| done]. by destruct p.
      * apply last_snoc.
      * apply Forall_app. auto.
      * by apply linked_snoc with c.
  - intros [p Hp]. revert c Hp. induction p as [| x p IH] using rev_ind.
    { by intros c (_ & ? & _). }
    intros c ((s & Hhead & Hs) & Hlast & Hall & Hlink).
    rewrite last_snoc in Hlast. injection Hlast as ->.
    apply Forall_app in Hall as [Hall Hc]. apply Forall_singleton in Hc as [Hin Hhit].
    apply linked_snoc_inv in Hlink as [Hlink Hadj].
    destruct (last p) as [a |] eqn:Hlast.
    + apply reach_next with a; [| by apply Hadj | done | done].
      apply IH. split_and!; [| done | done | done].
      exists s. split; [| done]. destruct p; [done | by simpl in *].
    + apply last_None in Hlast as ->. simpl in Hhead. injection Hhead as ->.
      by apply reach_border.
Qed.

(** ** Only the target is ever written *)

Lemma scan_pixels ns st st' :
  scan matches ns st = Some st' → pixels st' = pixels st.
Proof.
  revert st. induction ns as [| n ns IH]; intros st; simpl; [by intros [= ->] |].
  unfold probe. repeat case_decide; simpl; try apply IH.
  destruct (getpixel (pixels st) n); simpl; [| done].
  intros Hscan. by apply IH in Hscan.
Qed.

Lemma body_tame im c st st' :
  tame target im st → body matches target c st = Some st' → tame target im st'.
Proof.
  intros Ht. unfold body. case_decide; [by intros [= <-] |].
  unfold putpixel. destruct (locate (pixels st) c) as [c' |]; [| done].
  cbv [mbind option_bind]. intros Hscan. apply scan_pixels in Hscan.
  simpl in Hscan.
  intros n. rewrite Hscan. simpl. destruct (decide (c' = n)) as [-> | Hne].
  - right. apply lookup_insert_eq.
  - rewrite lookup_insert_ne by done. apply Ht.
Qed.

Lemma loop_tame im n st st' :
  tame target im st → loop matches target n st = Finished st' →
  tame target im st'.
Proof.
  revert st. induction n as [| n IH]; intros st Ht; simpl.
  - destruct (queue st); [by intros [= <-] | done].
  - destruct (queue st) as [| c q] eqn:Hq; [by intros [= <-] |].
    destruct (body matches target c _) as [st1 |] eqn:Hbody; [| done].
    apply IH. by apply (body_tame im c _ st1) in Hbody.
Qed.

Lemma start_pixels im st :
  start matches im = Some st → pixels st = im ∧ visited st = ∅.
Proof.
  unfold start. destruct (select matches im _ []) as [[q tr] |]; simpl; [| done].
  by intros [= <-].
Qed.
(** ** The trace only grows *)

Lemma scan_trace ns st st' :
  scan matches ns st = Some st' → ∃ ext, trace st' = trace st ++ ext.
Proof.
  revert st. induction ns as [| n ns IH]; intros st; simpl.
  { intros [= ->]. exists []. by rewrite app_nil_r. }
  unfold probe. repeat case_decide; simpl; try apply IH.
  destruct (getpixel (pixels st) n); simpl; [| done].
  intros Hscan. apply IH in Hscan as [ext Hext]. simpl in Hext.
  exists ([Load n] ++ ext). by rewrite Hext, <- app_assoc.
Qed.

Lemma body_trace c st st' :
  body matches target c st = Some st' → ∃ ext, trace st' = trace st ++ ext.
Proof.
  unfold body. case_decide.
  { intros [= ->]. exists []. by rewrite app_nil_r. }
  destruct (putpixel (pixels st) c target) as [P |]; [| done].
  cbv [mbind option_bind]. intros Hscan.
  apply scan_trace in Hscan as [ext Hext]. simpl in Hext.
  exists ([Store c] ++ ext). by rewrite Hext, <- app_assoc.
Qed.

Lemma loop_trace n st st' :
  loop matches target n st = Finished st' → ∃ ext, trace st' = trace st ++ ext.
Proof.
  revert st. induction n as [| n IH]; intros st; simpl.
  - destruct (queue st); [| done]. intros [= ->]. exists []. by rewrite app_nil_r.
  - destruct (queue st) as [| c q].
    { intros [= ->]. exists []. by rewrite app_nil_r. }
    destruct (body matches target c _) as [st1 |] eqn:Hbody; [| done].
    intros Hloop. apply IH in Hloop as [ext Hext].
    apply body_trace in Hbody as [ext1 Hext1]. simpl in Hext1.
    exists (ext1 ++ ext). by rewrite Hext, Hext1, <- app_assoc.
Qed.
End Traversal.

Lemma stores_elem tr c : c ∈ stores tr ↔ Store c ∈ tr.
Proof.
  induction tr as [| [c' | c'] tr IH]; simpl.
  - by rewrite !elem_of_nil.
  - rewrite IH, elem_of_cons. split; [auto | by intros [[=] | ?]].
  - rewrite !elem_of_cons, IH. split; (intros [Heq | ?]; [left; congruence | by right]).
Qed.

(** ** Degenerate rasters *)

Lemma border_head w h : 1 ≤ w ∨ 1 ≤ h → ∃ l, border w h = (0, 0) :: l.
Proof.
  intros Hwh. unfold border, top_bottom, left_right.
  destruct (decide (1 ≤ w)) as [Hw | Hw].
  - rewrite (seqZ_cons 0 w) by lia. simpl. eauto.
  - rewrite (seqZ_nil 0 w), (seqZ_cons 0 h) by lia. simpl. eauto.
Qed.

Lemma getpixel_origin_degenerate im :
  ¬ (1 ≤ width im ∧ 1 ≤ height im) → getpixel im (0, 0) = None.
Proof.
  intros Hdeg. unfold getpixel, locate, wrap. simpl.
  rewrite decide_False; [done |]. unfold inside. simpl. lia.
Qed.

(** On a raster without pixels the first seed read raises, or there is no
    seed at all; the iteration budget is never what stops a fill. *)
Lemma fill_never_starves matches target im :
  wf_image im → fill matches target im ≠ Starved.
Proof.
  intros Hwf.
  destruct (decide (1 ≤ width im ∧ 1 ≤ height im)) as [[Hw Hh] | Hdeg].
  { by destruct (fill_sound matches target im Hwf Hw Hh) as (st & -> & _). }
  unfold fill, start.
  destruct (decide (1 ≤ width im ∨ 1 ≤ height im)) as [Hsome | Hnone].
  - destruct (border_head _ _ Hsome) as [l ->]. simpl.
    by rewrite getpixel_origin_degenerate.
  - unfold border, top_bottom, left_right.
    by rewrite (seqZ_nil 0 (width im)), (seqZ_nil 0 (height im)) by lia.
Qed.

(** Each corner is appended by the loop over [x] and again by the loop over
    [y]. *)
Lemma corners_seeded_twice w h c :
  1 ≤ w → 1 ≤ h → c.1 = 0 ∨ c.1 = w - 1 → c.2 = 0 ∨ c.2 = h - 1 →
  c ∈ top_bottom w h ∧ c ∈ left_right w h.
Proof.
  intros Hw Hh Hx Hy. destruct c as [x y]. simpl in *.
  unfold top_bottom, left_right. rewrite !list_elem_of_bind. split.
  - exists x. rewrite elem_of_seqZ, !elem_of_cons.
    split; [| lia]. destruct Hy as [-> | ->]; auto.
  - exists y. rewrite elem_of_seqZ, !elem_of_cons.
    split; [| lia]. destruct Hx as [-> | ->]; auto.
Qed.

(** ** The fill as a whole *)

Section Fill_correct.
Variable matches : pixel → bool.
Variable target : pixel.
Variable im : image.
Hypothesis im_wf : wf_image im.
Hypothesis im_wide : 1 ≤ width im.
Hypothesis im_tall : 1 ≤ height im.

(** The fill returns; it has written [target] once to every pixel of the
    border-connected matching region and nothing anywhere else. *)
Lemma fill_region :
  ∃ st, fill matches target im = Finished st ∧ queue st = [] ∧
        sound matches target im st ∧
        (∀ c, c ∈ visited st ↔ joined matches im c).
Proof.
  destruct (fill_sound matches target im im_wf im_wide im_tall)
    as (st & Hfill & Hs & Hq).
  exists st. split_and!; try done. intros c. rewrite <- reach_joined. split.
  - apply (sound_visited _ _ _ _ Hs).
  - by apply sound_complete with target.
Qed.
End Fill_correct.

(** ** The claims about the fill *)

(** C1.  On a raster at least one pixel wide and high, with a target the
    predicate rejects, the fill writes exactly the pixels that are joined to
    the border by a 4-connected path of pixels matching in the input; those
    are exactly the pixels whose value changes; each of them ends as the
    target and every other pixel, enclosed matching pixels included, keeps
    its input value. *)
Theorem fill_recolours_border_region (matches : pixel → bool) (target : pixel)
    (im : image) :
  wf_image im → 1 ≤ width im → 1 ≤ height im → matches target = false →
  ∃ st, fill matches target im = Finished st ∧
        (∀ c, c ∈ stores (trace st) ↔ joined matches im c) ∧
        (∀ c, data (pixels st) !! c ≠ data im !! c ↔ joined matches im c) ∧
        (∀ c, joined matches im c → data (pixels st) !! c = Some target) ∧
        (∀ c, ¬ joined matches im c → data (pixels st) !! c = data im !! c).
Proof.
  intros Hwf Hw Hh Htarget.
  destruct (fill_region matches target im Hwf Hw Hh) as (st & Hfill & _ & Hs & Hvis).
  exists st. split; [done |].
  assert (∀ c, joined matches im c → data (pixels st) !! c = Some target) as Hin.
  { intros c Hc. by apply (sound_painted _ _ _ _ Hs), Hvis. }
  assert (∀ c, ¬ joined matches im c → data (pixels st) !! c = data im !! c) as Hout.
  { intros c Hc. apply (sound_kept _ _ _ _ Hs). by rewrite Hvis. }
  split_and!; [| | done | done].
  - intros c. by rewrite (sound_written _ _ _ _ Hs).
  - intros c. split.
    + intros Hne. destruct (decide (c ∈ visited st)) as [HV | HV]; [by apply Hvis |].
      by rewrite (sound_kept _ _ _ _ Hs c HV) in Hne.
    + intros Hc. rewrite (Hin c Hc). intros Heq.
      apply reach_joined, reach_hit in Hc. unfold hit in Hc.
      rewrite <- Heq in Hc. congruence.
Qed.

Lemma fill_recolours_border_region_witness :
  ∃ st, fill is_white target_green moat = Finished st ∧
        (∀ c, c ∈ stores (trace st) ↔ joined is_white moat c) ∧
        (∀ c, data (pixels st) !! c ≠ data moat !! c ↔ joined is_white moat c) ∧
        (∀ c, joined is_white moat c → data (pixels st) !! c = Some target_green) ∧
        (∀ c, ¬ joined is_white moat c → data (pixels st) !! c = data moat !! c).
Proof.
  apply (fill_recolours_border_region is_white target_green moat);
    [by vm_compute | simpl; lia | simpl; lia | reflexivity].
Defined.

(** C2.  Whatever the raster, predicate and target: on entry to the loop
    every pixel has its input value, every iteration of the loop leaves each
    pixel either as it was or equal to the target, so being the input's value
    or the target is kept by every iteration, and every pixel of the raster
    the fill returns is the input's or the target. *)
Theorem fill_pixels_input_or_target (matches : pixel → bool) (target : pixel)
    (im : image) :
  (∀ st, start matches im = Some st → tame target im st) ∧
  (∀ c st st', body matches target c st = Some st' →
               ∀ n, data (pixels st') !! n = data (pixels st) !! n ∨
                    data (pixels st') !! n = Some target) ∧
  (∀ c st st', tame target im st → body matches target c st = Some st' →
               tame target im st') ∧
  (∀ st, fill matches target im = Finished st → tame target im st).
Proof.
  split_and!.
  - intros st Hst. apply start_pixels in Hst as [Hp _]. intros c. left. by rewrite Hp.
  - intros c st st' Hbody.
    apply (body_tame matches target (pixels st) c st st'); [| done].
    intros n. by left.
  - intros c st st'. apply body_tame.
  - intros st. unfold fill. destruct (start matches im) as [st0 |] eqn:Hst; [| done].
    apply loop_tame. apply start_pixels in Hst as [Hp _]. intros c. left.
    by rewrite Hp.
Qed.

Lemma fill_pixels_input_or_target_witness :
  ∃ st, fill is_white target_green moat = Finished st ∧ tame target_green moat st.
Proof.
  destruct (fill is_white target_green moat) as [st | |] eqn:Hfill;
    [| by vm_compute in Hfill | by vm_compute in Hfill].
  exists st. split; [reflexivity |].
  exact (proj2 (proj2 (proj2
    (fill_pixels_input_or_target is_white target_green moat))) st Hfill).
Defined.

(** C3.  A popped coordinate already in [visited] is skipped without any
    change; over a whole fill no coordinate is written twice, the
    coordinates written are exactly those in [visited] at the end, each of
    them holds the target, and every other pixel is as in the input.  The
    frontier does hold duplicates: each corner is seeded by both border
    loops. *)
Theorem fill_writes_visited_once (matches : pixel → bool) (target : pixel)
    (im : image) :
  wf_image im → 1 ≤ width im → 1 ≤ height im →
  (∀ c st, c ∈ visited st → body matches target c st = Some st) ∧
  (∀ c, (c.1 = 0 ∨ c.1 = width im - 1) → (c.2 = 0 ∨ c.2 = height im - 1) →
        c ∈ top_bottom (width im) (height im) ∧
        c ∈ left_right (width im) (height im)) ∧
  ∃ st, fill matches target im = Finished st ∧
        NoDup (stores (trace st)) ∧
        (∀ c, c ∈ stores (trace st) ↔ c ∈ visited st) ∧
        (∀ c, c ∈ visited st → data (pixels st) !! c = Some target) ∧
        (∀ c, c ∉ visited st → data (pixels st) !! c = data im !! c).
Proof.
  intros Hwf Hw Hh. split_and!.
  - intros c st. apply body_visited.
  - intros c. by apply corners_seeded_twice.
  - destruct (fill_sound matches target im Hwf Hw Hh) as (st & Hfill & Hs & _).
    exists st. split_and!; [done | apply Hs..].
Qed.

Lemma fill_writes_visited_once_witness :
  (∀ c st, c ∈ visited st → body is_white target_green c st = Some st) ∧
  (∀ c, (c.1 = 0 ∨ c.1 = width row3 - 1) → (c.2 = 0 ∨ c.2 = height row3 - 1) →
        c ∈ top_bottom (width row3) (height row3) ∧
        c ∈ left_right (width row3) (height row3)) ∧
  ∃ st, fill is_white target_green row3 = Finished st ∧
        NoDup (stores (trace st)) ∧
        (∀ c, c ∈ stores (trace st) ↔ c ∈ visited st) ∧
        (∀ c, c ∈ visited st → data (pixels st) !! c = Some target_green) ∧
        (∀ c, c ∉ visited st → data (pixels st) !! c = data row3 !! c).
Proof.
  apply (fill_writes_visited_once is_white target_green row3);
    [by vm_compute | simpl; lia | simpl; lia].
Defined.

(** C4.  On a raster at least one pixel wide and high the [while] loop
    empties the queue after finitely many iterations, for every predicate and
    target: some number of iterations (and any larger number) takes the entry
    state to a state with an empty queue, which is what the fill returns. *)
Theorem fill_terminates (matches : pixel → bool) (target : pixel) (im : image) :
  wf_image im → 1 ≤ width im → 1 ≤ height im →
  ∃ st0 st n,
    start matches im = Some st0 ∧
    (∀ m, (n ≤ m)%nat → loop matches target m st0 = Finished st) ∧
    queue st = [] ∧
    fill matches target im = Finished st.
Proof.
  intros Hwf Hw Hh.
  destruct (fill_sound matches target im Hwf Hw Hh) as (st & Hfill & _ & Hq).
  pose proof (start_spec matches im Hwf Hw Hh) as Hst.
  unfold fill in Hfill. rewrite Hst in Hfill.
  eexists _, st, _. split_and!; [exact Hst | | done |].
  - intros m Hm. by apply loop_more with (1 := Hfill).
  - unfold fill. by rewrite Hst.
Qed.

Lemma fill_terminates_witness :
  ∃ st0 st n,
    start is_white moat = Some st0 ∧
    (∀ m, (n ≤ m)%nat → loop is_white target_green m st0 = Finished st) ∧
    queue st = [] ∧
    fill is_white target_green moat = Finished st.
Proof.
  apply (fill_terminates is_white target_green moat);
    [by vm_compute | simpl; lia | simpl; lia].
Defined.

Lemma filter_none {A} (P : A → Prop) `{∀ x, Decision (P x)} (l : list A) :
  (∀ x, x ∈ l → ¬ P x) → filter P l = [].
Proof.
  intros Hl. destruct (filter P l) as [| x l'] eqn:Hf; [done |].
  assert (x ∈ filter P l) as Hx by (rewrite Hf; apply list_elem_of_here).
  apply list_elem_of_filter in Hx as [HP Hx]. by destruct (Hl x Hx).
Qed.

(** Without a matching border pixel the loop is entered with an empty queue
    and left at once. *)
Lemma fill_unseeded (matches : pixel → bool) (target : pixel) (im : image) :
  wf_image im → 1 ≤ width im → 1 ≤ height im →
  (∀ c, on_border (width im) (height im) c → hit matches im c = false) →
  start matches im =
    Some (Machine im ∅ [] (Load <$> border (width im) (height im))) ∧
  fill matches target im =
    Finished (Machine im ∅ [] (Load <$> border (width im) (height im))).
Proof.
  intros Hwf Hw Hh Hnone.
  assert (start matches im =
    Some (Machine im ∅ [] (Load <$> border (width im) (height im)))) as Hst.
  { rewrite start_spec by done. rewrite filter_none; [done |].
    intros c Hc. apply elem_of_border in Hc; [| done..].
    by rewrite (Hnone c Hc). }
  split; [done |]. unfold fill. by rewrite Hst.
Qed.

(** C5.  With a target the predicate rejects, a second fill of the result of
    a first one finds no matching border seed, enters the loop with an empty
    queue, writes nothing and returns the very raster it was given: filling
    twice gives the same raster as filling once. *)
Theorem fill_idempotent (matches : pixel → bool) (target : pixel) (im : image) :
  wf_image im → 1 ≤ width im → 1 ≤ height im → matches target = false →
  ∃ st tr,
    fill matches target im = Finished st ∧
    start matches (pixels st) = Some (Machine (pixels st) ∅ [] tr) ∧
    fill matches target (pixels st) = Finished (Machine (pixels st) ∅ [] tr) ∧
    stores tr = [].
Proof.
  intros Hwf Hw Hh Htarget.
  destruct (fill_region matches target im Hwf Hw Hh) as (st & Hfill & Hq & Hs & Hvis).
  pose proof (sound_wf _ _ _ _ Hwf Hs) as Hwf'.
  pose proof (sound_width _ _ _ _ Hs) as Hw'.
  pose proof (sound_height _ _ _ _ Hs) as Hh'.
  destruct (fill_unseeded matches target (pixels st)) as [Hst Hfill'];
    [done | lia | lia | |].
  - intros c Hb. rewrite Hw', Hh' in Hb. unfold hit.
    destruct (decide (c ∈ visited st)) as [HV | HV].
    + by rewrite (sound_painted _ _ _ _ Hs c HV).
    + rewrite (sound_kept _ _ _ _ Hs c HV).
      destruct (hit matches im c) eqn:Hhit; [| done].
      destruct HV. apply (sound_complete _ _ _ _ _ Hs Hq). by apply reach_border.
  - exists st, (Load <$> border (width (pixels st)) (height (pixels st))).
    split_and!; [done | done | done | apply stores_loads].
Qed.

Lemma fill_idempotent_witness :
  ∃ st tr,
    fill is_white target_green moat = Finished st ∧
    start is_white (pixels st) = Some (Machine (pixels st) ∅ [] tr) ∧
    fill is_white target_green (pixels st) = Finished (Machine (pixels st) ∅ [] tr) ∧
    stores tr = [].
Proof.
  apply (fill_idempotent is_white target_green moat);
    [by vm_compute | simpl; lia | simpl; lia | reflexivity].
Defined.

(** C6.  When no border pixel satisfies the predicate the filtered seed list
    is empty, the loop body never runs, nothing is written, and the raster
    returned is the input raster itself. *)
Theorem fill_noop_without_border_match (matches : pixel → bool) (target : pixel)
    (im : image) :
  wf_image im → 1 ≤ width im → 1 ≤ height im →
  (∀ c, on_border (width im) (height im) c → hit matches im c = false) →
  ∃ tr, start matches im = Some (Machine im ∅ [] tr) ∧
        fill matches target im = Finished (Machine im ∅ [] tr) ∧
        stores tr = [].
Proof.
  intros Hwf Hw Hh Hnone.
  destruct (fill_unseeded matches target im Hwf Hw Hh Hnone) as [Hst Hfill].
  eexists. split_and!; [exact Hst | exact Hfill | apply stores_loads].
Qed.

Lemma island_border_black c :
  on_border (width island) (height island) c → hit is_white island c = false.
Proof.
  intros [[Hx Hy] Hedge]. destruct c as [x y]. simpl in *.
  assert (x = 0 ∨ x = 1 ∨ x = 2) as Hxs by lia.
  assert (y = 0 ∨ y = 1 ∨ y = 2) as Hys by lia.
  destruct Hxs as [-> | [-> | ->]], Hys as [-> | [-> | ->]];
    first [by vm_compute | lia].
Qed.

Lemma fill_noop_without_border_match_witness :
  ∃ tr, start is_white island = Some (Machine island ∅ [] tr) ∧
        fill is_white target_green island = Finished (Machine island ∅ [] tr) ∧
        stores tr = [].
Proof.
  apply (fill_noop_without_border_match is_white target_green island);
    [by vm_compute | simpl; lia | simpl; lia | apply island_border_black].
Defined.

(** C7.  [is_white] holds exactly when red, green and blue each exceed 200,
    which lies between 78% and 79% of 255; the alpha channel plays no part;
    and the script's target [(17, 124, 50, 255)] is not white. *)
Theorem is_white_threshold :
  (∀ p, is_white p = true ↔ 200 < red p ∧ 200 < green p ∧ 200 < blue p) ∧
  (∀ r g b a a', is_white (Pixel r g b a) = is_white (Pixel r g b a')) ∧
  78 * 255 ≤ 100 * 200 < 79 * 255 ∧
  is_white target_green = false.
Proof.
  split_and!; [| done | lia | lia | done].
  intros p. unfold is_white. rewrite !andb_true_iff, !Z.ltb_lt. tauto.
Qed.

(** C9.  A target that itself satisfies the predicate changes nothing about
    where the fill goes: it returns, it writes each pixel of the
    border-connected region of the input once and no other pixel, it leaves
    every pixel outside that region as it was, and its visited set is the one
    a fill with a rejected target ends with. *)
Theorem fill_region_ignores_target (matches : pixel → bool) (target : pixel)
    (im : image) :
  wf_image im → 1 ≤ width im → 1 ≤ height im → matches target = true →
  ∃ st, fill matches target im = Finished st ∧ queue st = [] ∧
        (∀ c, c ∈ visited st ↔ joined matches im c) ∧
        NoDup (stores (trace st)) ∧
        (∀ c, c ∈ stores (trace st) ↔ joined matches im c) ∧
        (∀ c, joined matches im c → data (pixels st) !! c = Some target) ∧
        (∀ c, ¬ joined matches im c → data (pixels st) !! c = data im !! c) ∧
        (∀ target', matches target' = false →
           ∃ st', fill matches target' im = Finished st' ∧
                  visited st' = visited st).
Proof.
  intros Hwf Hw Hh _.
  destruct (fill_region matches target im Hwf Hw Hh) as (st & Hfill & Hq & Hs & Hvis).
  exists st. split_and!; [done | done | done | apply Hs | | | |].
  - intros c. by rewrite (sound_written _ _ _ _ Hs).
  - intros c Hc. by apply (sound_painted _ _ _ _ Hs), Hvis.
  - intros c Hc. apply (sound_kept _ _ _ _ Hs). by rewrite Hvis.
  - intros target' _.
    destruct (fill_region matches target' im Hwf Hw Hh) as (st' & Hfill' & _ & _ & Hvis').
    exists st'. split; [done |]. apply set_eq. intros c. by rewrite Hvis, Hvis'.
Qed.

Lemma fill_region_ignores_target_witness :
  ∃ st, fill is_white white moat = Finished st ∧ queue st = [] ∧
        (∀ c, c ∈ visited st ↔ joined is_white moat c) ∧
        NoDup (stores (trace st)) ∧
        (∀ c, c ∈ stores (trace st) ↔ joined is_white moat c) ∧
        (∀ c, joined is_white moat c → data (pixels st) !! c = Some white) ∧
        (∀ c, ¬ joined is_white moat c → data (pixels st) !! c = data moat !! c) ∧
        (∀ target', is_white target' = false →
           ∃ st', fill is_white target' moat = Finished st' ∧
                  visited st' = visited st).
Proof.
  apply (fill_region_ignores_target is_white white moat);
    [by vm_compute | simpl; lia | simpl; lia | reflexivity].
Defined.

(** C10.  On a raster at least one pixel wide and high no [IndexError]
    escapes the fill, and every index it passes to the raster, for the reads
    of the seed candidates, the reads of neighbours and the writes alike,
    has [0 <= x < width] and [0 <= y < height]; the raster is indexed at
    that very coordinate, never at a wrapped one. *)
Theorem fill_indexes_in_range (matches : pixel → bool) (target : pixel)
    (im : image) :
  wf_image im → 1 ≤ width im → 1 ≤ height im →
  ∃ st, fill matches target im = Finished st ∧
        (∀ c, c ∈ border (width im) (height im) → Load c ∈ trace st) ∧
        (∀ c, Store c ∈ trace st ↔ c ∈ visited st) ∧
        (∀ a, a ∈ trace st →
           inside (width im) (height im) (touched a) ∧
           locate im (touched a) = Some (touched a)).
Proof.
  intros Hwf Hw Hh.
  destruct (fill_sound matches target im Hwf Hw Hh) as (st & Hfill & Hs & _).
  exists st. split_and!; [done | | |].
  - intros c Hc. unfold fill in Hfill. rewrite start_spec in Hfill by done.
    apply loop_trace in Hfill as [ext ->]. simpl.
    apply elem_of_app. left. by apply list_elem_of_fmap_2.
  - intros c. by rewrite <- stores_elem, (sound_written _ _ _ _ Hs).
  - intros a Ha. pose proof (sound_access _ _ _ _ Hs a Ha) as Hin.
    split; [done | by apply locate_inside].
Qed.

Lemma fill_indexes_in_range_witness :
  ∃ st, fill is_white target_green moat = Finished st ∧
        (∀ c, c ∈ border (width moat) (height moat) → Load c ∈ trace st) ∧
        (∀ c, Store c ∈ trace st ↔ c ∈ visited st) ∧
        (∀ a, a ∈ trace st →
           inside (width moat) (height moat) (touched a) ∧
           locate moat (touched a) = Some (touched a)).
Proof.
  apply (fill_indexes_in_range is_white target_green moat);
    [by vm_compute | simpl; lia | simpl; lia].
Defined.

(** ** The script: what a failing collaborator leaves behind *)

Lemma outputs_NoDup : NoDup outputs.
Proof. apply (bool_decide_unpack _). by vm_compute. Qed.

Lemma chatter_no_error : Forall (λ l, String.prefix "Error: " l = false) chatter.
Proof. repeat constructor. Qed.

Ltac io_open :=
  unfold flood, mbind, IO_bind, lift, throw, mret, IO_ret, print, save;
  cbn -[fill].

(** The [try] block raised after [k] saves and the lines [l]. *)
Ltac halted k l :=
  unfold throw; cbn; intros Heq; simplify_eq;
  exists (take k outputs), (drop k outputs), l;
  split_and!;
  [ reflexivity
  | discriminate
  | cbn; rewrite <- ?app_assoc, ?app_nil_r; reflexivity
  | cbn; intros p Hp;
    rewrite ?lookup_insert_ne by (intros <-; apply Hp; repeat constructor);
    reflexivity
  | unfold chatter; eexists; reflexivity
  | cbn; rewrite <- ?app_assoc, ?app_nil_r; reflexivity ].

(** A raise inside the [try] block comes after a proper initial part of the
    saves and of the progress lines, and nothing else has changed. *)
Lemma attempt_raised env w w1 e :
  attempt env w = (w1, Exn e) →
  ∃ done rest lines,
    outputs = done ++ rest ∧ rest ≠ [] ∧
    saves w1 = saves w ++ done ∧
    (∀ p, p ∉ done → disk w1 !! p = disk w !! p) ∧
    lines `prefix_of` chatter ∧ stdout w1 = stdout w ++ lines.
Proof.
  unfold attempt, flood, mbind, IO_bind, lift.
  destruct (open_image env "public/gimmies-app-logo.png") as [e0 | img] eqn:Hopen.
  { halted 0%nat (@nil string). }
  io_open.
  destruct (fill is_white target_green img) as [st | |] eqn:Hfill;
    [| halted 0%nat (@nil string) | done].
  io_open.
  destruct (save_fault env "public/gimmies_app_icon.png") as [e1 |] eqn:Hs1.
  { halted 0%nat (take 1 chatter). }
  io_open.
  destruct (resize env (pixels st) (1024, 1024)) as [e2 | im2] eqn:Hr2.
  { halted 1%nat (take 2 chatter). }
  destruct (save_fault env "public/icons/icon-1024.png") as [e3 |] eqn:Hs2.
  { halted 1%nat (take 2 chatter). }
  io_open.
  destruct (resize env (pixels st) (512, 512)) as [e4 | im3] eqn:Hr3.
  { halted 2%nat (take 3 chatter). }
  destruct (save_fault env "public/icons/icon-512.png") as [e5 |] eqn:Hs3.
  { halted 2%nat (take 3 chatter). }
  io_open.
  destruct (resize env (pixels st) (192, 192)) as [e6 | im4] eqn:Hr4.
  { halted 3%nat (take 4 chatter). }
  destruct (save_fault env "public/icons/icon-192.png") as [e7 |] eqn:Hs4.
  { halted 3%nat (take 4 chatter). }
  io_open.
  destruct (resize env (pixels st) (180, 180)) as [e8 | im5] eqn:Hr5.
  { halted 4%nat (take 5 chatter). }
  destruct (save_fault env "public/apple-touch-icon.png") as [e9 |] eqn:Hs5.
  { halted 4%nat (take 5 chatter). }
  io_open.
  destruct (resize env (pixels st) (64, 64)) as [e10 | im6] eqn:Hr6.
  { halted 5%nat (take 6 chatter). }
  destruct (save_fault env "public/favicon.png") as [e11 |] eqn:Hs6.
  { halted 5%nat (take 6 chatter). }
  done.
Qed.

(** A [try] block that runs to its end has saved every output and printed
    every progress line. *)
Lemma attempt_returned env w w1 :
  attempt env w = (w1, Val ()) →
  saves w1 = saves w ++ outputs ∧ stdout w1 = stdout w ++ chatter.
Proof.
  unfold attempt, flood, mbind, IO_bind, lift.
  destruct (open_image env "public/gimmies-app-logo.png") as [e0 | img]; [done |].
  io_open.
  destruct (fill is_white target_green img) as [st | |]; [| done | done].
  io_open.
  destruct (save_fault env "public/gimmies_app_icon.png"); [done |]. io_open.
  destruct (resize env (pixels st) (1024, 1024)); [done |].
  destruct (save_fault env "public/icons/icon-1024.png"); [done |]. io_open.
  destruct (resize env (pixels st) (512, 512)); [done |].
  destruct (save_fault env "public/icons/icon-512.png"); [done |]. io_open.
  destruct (resize env (pixels st) (192, 192)); [done |].
  destruct (save_fault env "public/icons/icon-192.png"); [done |]. io_open.
  destruct (resize env (pixels st) (180, 180)); [done |].
  destruct (save_fault env "public/apple-touch-icon.png"); [done |]. io_open.
  destruct (resize env (pixels st) (64, 64)); [done |].
  destruct (save_fault env "public/favicon.png"); [done |].
  intros Heq. simplify_eq. cbn. by rewrite <- !app_assoc.
Qed.

(** A source that decodes to a well-formed raster never leaves the [try]
    block hanging. *)
Lemma attempt_no_hang env w w1 :
  (∀ img, open_image env "public/gimmies-app-logo.png" = inr img → wf_image img) →
  attempt env w ≠ (w1, Hang).
Proof.
  intros Hsrc. unfold attempt, flood, mbind, IO_bind, lift.
  destruct (open_image env "public/gimmies-app-logo.png") as [e0 | img] eqn:Hopen;
    [done |].
  specialize (Hsrc img eq_refl). io_open.
  pose proof (fill_never_starves is_white target_green img Hsrc) as Hfill.
  destruct (fill is_white target_green img) as [st | |]; [| done | done].
  io_open.
  destruct (save_fault env "public/gimmies_app_icon.png"); [done |]. io_open.
  destruct (resize env (pixels st) (1024, 1024)); [done |].
  destruct (save_fault env "public/icons/icon-1024.png"); [done |]. io_open.
  destruct (resize env (pixels st) (512, 512)); [done |].
  destruct (save_fault env "public/icons/icon-512.png"); [done |]. io_open.
  destruct (resize env (pixels st) (192, 192)); [done |].
  destruct (save_fault env "public/icons/icon-192.png"); [done |]. io_open.
  destruct (resize env (pixels st) (180, 180)); [done |].
  destruct (save_fault env "public/apple-touch-icon.png"); [done |]. io_open.
  destruct (resize env (pixels st) (64, 64)); [done |].
  by destruct (save_fault env "public/favicon.png").
Qed.

(** The handler turns a raise into one more printed line and a normal
    return. *)
Lemma handler_reports env w w1 e :
  attempt env w = (w1, Exn e) →
  fix_icon_and_generate_favicon env w =
    (World (disk w1) (saves w1) (stdout w1 ++ ["Error: " +:+ e]), Val ()).
Proof.
  intros Hrun. unfold fix_icon_and_generate_favicon, try_except. by rewrite Hrun.
Qed.



(** ** Runs on small rasters *)

(** A single row: every pixel is on the border and is painted. *)
Example row3_painted :
  ∃ st, fill is_white target_green row3 = Finished st ∧
        pixels st = raster 3 1 (λ _, target_green).
Proof. eexists. split; by vm_compute. Qed.

(** The rim is painted, the black ring and the white centre stay. *)
Example moat_centre_kept :
  ∃ st, fill is_white target_green moat = Finished st ∧
        pixels st =
          raster 5 5 (λ c, if decide (Z.max (Z.abs (c.1 - 2)) (Z.abs (c.2 - 2)) = 2)
                           then target_green
                           else if decide (Z.max (Z.abs (c.1 - 2)) (Z.abs (c.2 - 2)) = 1)
                           then black else white).
Proof. eexists. split; by vm_compute. Qed.

(** The seed list of a two by two raster names every corner twice. *)
Example border_2_2 :
  border 2 2 = [(0, 0); (0, 1); (1, 0); (1, 1); (0, 0); (1, 0); (0, 1); (1, 1)].
Proof. reflexivity. Qed.
